(** * raft/tracker.hh: leader-side replication progress and vote tallying

    A shallow embedding of the classes declared in [raft/tracker.hh]
    ([follower_progress], [tracker], [election_tracker], [votes]) and the
    properties of them that the design document states.

    Conventions.
    - [server_id] is declared in [raft.hh]; the header only hashes it and
      compares it for equality, so it is a type parameter with decidable
      equality that can be stored in [gset] / [gmap].
    - [index_t] is declared in [raft.hh] as well, as a tagged unsigned
      64-bit integer.  The header uses its constructor from an integer,
      [operator+] and its order (through [std::max]).  It is embedded as
      [Z]; the development is generic in the width, which is the
      parameter [index_bits], and the one addition of the header wraps
      around at [2 ^ index_bits].
    - [size_t] is the 64-bit unsigned integer of the platforms the project
      builds for; its additions and subtractions wrap around at [2 ^ 64].
    - [assert] is embedded as failure: a function that contains one
      returns an [option], [None] being the failed assertion. *)

From Stdlib Require Import ZArith Lia.
From stdpp Require Import gmap list.

Local Open Scope Z_scope.

(* [set_solver] clears hypotheses that an earlier step has consumed. *)
#[local] Set Warnings "-clear-no-such-hyp".

(** ** Machine integers *)

Definition size_t_modulus : Z := 2 ^ 64.
Definition SIZE_MAX : Z := size_t_modulus - 1.

(** [a + b] on [size_t]. *)
Definition size_add (a b : Z) : Z := (a + b) mod size_t_modulus.
(** [a - b] on [size_t]. *)
Definition size_sub (a b : Z) : Z := (a - b) mod size_t_modulus.

(** [s.size()] of a [std::unordered_set]. *)
Definition set_size `{Countable K} (s : gset K) : Z := Z.of_nat (size s).

(** ** [class follower_progress] *)

Module follower_progress.

(** [enum class state]. *)
Inductive state_t : Type :=
| PROBE     (* only one append entry is sent until the matching index is found *)
| PIPELINE  (* multiple append entries are sent optimistically *)
| SNAPSHOT. (* a snapshot is being transferred *)

Section follower_progress.
Context {server_id : Type}.
(** Width of the machine integer behind [index_t]. *)
Variable index_bits : N.

Definition index_modulus : Z := 2 ^ Z.of_N index_bits.

(** [a + b] on [index_t]. *)
Definition index_add (a b : Z) : Z := (a + b) mod index_modulus.

Record t : Type := mk {
  id : server_id;        (* id of this server *)
  next_idx : Z;          (* index of the next log entry to send *)
  match_idx : Z;         (* highest log entry known to be replicated *)
  commit_idx : Z;        (* index known to be committed by the follower *)
  state : state_t;
  probe_sent : bool;     (* a packet was sent already in probe mode *)
  in_flight : Z          (* un-acked append entries requests *)
}.

Definition max_in_flight : Z := 10.

(** The constructor [follower_progress(id_arg, next_idx_arg)], with the
    default member initialisers of the class. *)
Definition make (id_arg : server_id) (next_idx_arg : Z) : t :=
  {| id := id_arg;
     next_idx := next_idx_arg;
     match_idx := 0;
     commit_idx := 0;
     state := PROBE;
     probe_sent := false;
     in_flight := 0 |}.

(** [void accepted(index_t idx)]. *)
Definition accepted (fp : t) (idx : Z) : t :=
  let match_idx' := Z.max idx (match_idx fp) in
  let next_idx' := Z.max (index_add idx 1) (next_idx fp) in
  {| id := id fp;
     next_idx := next_idx';
     match_idx := match_idx';
     commit_idx := commit_idx fp;
     state := state fp;
     probe_sent := probe_sent fp;
     in_flight := in_flight fp |}.

(** A sequence of [accepted] calls, in the order of the list. *)
Definition accepted_all (fp : t) (idxs : list Z) : t :=
  foldl accepted fp idxs.

(** Modelled from the spec: [bool can_send_to()] is declared in the header
    and defined in [tracker.cc], which is not part of the sources.  The
    design document: in [Probe], true only if no probe is outstanding; in
    [Pipeline], true iff [in_flight < max_in_flight]; in [Snapshot],
    false. *)
Definition can_send_to (fp : t) : bool :=
  match state fp with
  | PROBE => negb (probe_sent fp)
  | PIPELINE => in_flight fp <? max_in_flight
  | SNAPSHOT => false
  end.

(** The invariant of the data model: [next_idx] is ahead of the
    confirmed progress. *)
Definition match_before_next (fp : t) : Prop := match_idx fp < next_idx fp.

End follower_progress.

Arguments t : clear implicits.

End follower_progress.

(** ** [enum class vote_result] *)

Inductive vote_result : Type :=
| UNKNOWN  (* not enough responses yet *)
| WON      (* this candidate has won the election *)
| LOST.    (* the quorum of servers has voted against this candidate *)

#[global] Instance vote_result_eq_dec : EqDecision vote_result.
Proof. solve_decision. Defined.

(** ** [class election_tracker] *)

Module election_tracker.

Section election_tracker.
Context `{Countable server_id}.

(** The members of [server_address] (declared in [raft.hh]) that the
    constructor reads. *)
Record server_address : Type := mk_address {
  id : server_id;
  can_vote : bool
}.

(** [server_address_set], in the order the constructor's loop visits it. *)
Definition server_address_set : Type := list server_address.

Record t : Type := mk {
  _suffrage : gset server_id;   (* all eligible voters *)
  _responded : gset server_id;  (* votes collected *)
  _granted : Z
}.

(** The constructor [election_tracker(const server_address_set&)]. *)
Definition make (configuration : server_address_set) : t :=
  {| _suffrage :=
       foldl (fun s a => if can_vote a then {[ id a ]} ∪ s else s) ∅ configuration;
     _responded := ∅;
     _granted := 0 |}.

(** [bool register_vote(server_id from, bool granted)]: the tracker after
    the call and the value returned. *)
Definition register_vote (et : t) (from : server_id) (granted : bool) : t * bool :=
  if decide (from ∈ _suffrage et) then
    (* [_responded.emplace(from)]: [.second] tells whether [from] was new *)
    let inserted := bool_decide (from ∉ _responded et) in
    let responded' := {[ from ]} ∪ _responded et in
    let granted' :=
      if inserted then size_add (_granted et) (Z.b2z granted) else _granted et in
    ({| _suffrage := _suffrage et;
        _responded := responded';
        _granted := granted' |}, true)
  else (et, false).

(** [vote_result tally_votes() const]; [None] is the failed [assert]. *)
Definition tally_votes (et : t) : option vote_result :=
  let quorum := size_add (set_size (_suffrage et) / 2) 1 in
  if quorum <=? _granted et then Some WON
  else if set_size (_responded et) <=? set_size (_suffrage et) then
    let unknown := size_sub (set_size (_suffrage et)) (set_size (_responded et)) in
    Some (if quorum <=? size_add (_granted et) unknown then UNKNOWN else LOST)
  else None.

(** A sequence of [register_vote] calls, return values dropped. *)
Definition register_votes (et : t) (calls : list (server_id * bool)) : t :=
  foldl (fun et c => (register_vote et c.1 c.2).1) et calls.

(** The class invariant: what every [election_tracker] object satisfies,
    the private members being reachable through the constructor and
    [register_vote] only.  [counted]: only eligible voters have responded
    and every granted vote is a recorded one.  [valid_size]: the bound
    that [size()] of a container has by its type. *)
Definition counted (et : t) : Prop :=
  _responded et ⊆ _suffrage et ∧ 0 ≤ _granted et ≤ set_size (_responded et).

Record valid (et : t) : Prop := {
  valid_counted : counted et;
  valid_size : set_size (_suffrage et) ≤ SIZE_MAX
}.

End election_tracker.

Arguments server_address : clear implicits.
Arguments server_address_set : clear implicits.
Arguments t _ {_ _}.

End election_tracker.

(** ** [class votes] *)

Module votes.

Section votes.
Context `{Countable server_id}.

Record t : Type := mk {
  _voters : election_tracker.server_address_set server_id;
  _current : election_tracker.t server_id;
  _previous : option (election_tracker.t server_id)
}.

(** The outcome of an election held under two configurations at once. *)
Definition joint_result (current previous : vote_result) : vote_result :=
  match current, previous with
  | WON, WON => WON
  | LOST, _ | _, LOST => LOST
  | _, _ => UNKNOWN
  end.

(** Modelled from the spec: [vote_result tally_votes() const] of [votes]
    is declared in the header and defined in [tracker.cc], which is not
    part of the sources.  The design document: without [previous], the
    result of [current.tally_votes()]; with [previous], [Won] only if both
    trackers report [Won], [Lost] if either reports [Lost], otherwise
    [Unknown].  A failed assertion in either tally is a failure of the
    whole call. *)
Definition tally_votes (v : t) : option vote_result :=
  match _previous v with
  | None => election_tracker.tally_votes (_current v)
  | Some previous =>
      match election_tracker.tally_votes (_current v),
            election_tracker.tally_votes previous with
      | Some c, Some p => Some (joint_result c p)
      | _, _ => None
      end
  end.

End votes.

Arguments t _ {_ _}.

End votes.

(** ** [class tracker] *)

Module tracker.

Section tracker.
Context `{Countable server_id}.

(** [class tracker : private progress], [progress] being the map from
    [server_id] to [follower_progress].  [_leader_progress] points into
    that map: it is kept as the key of the entry it points to. *)
Record t : Type := mk {
  progress : gmap server_id (follower_progress.t server_id);
  _my_id : server_id;
  _current_voters : gset server_id;
  _previous_voters : gset server_id;
  _leader_progress : option server_id
}.

(** The constructor [tracker(server_id my_id)]. *)
Definition make (my_id : server_id) : t :=
  {| progress := ∅;
     _my_id := my_id;
     _current_voters := ∅;
     _previous_voters := ∅;
     _leader_progress := None |}.

(** [follower_progress* find(server_id dst)]; [None] is [nullptr]. *)
Definition find (tr : t) (dst : server_id) : option (follower_progress.t server_id) :=
  progress tr !! dst.

(** [follower_progress* leader_progress()]. *)
Definition leader_progress (tr : t) : option (follower_progress.t server_id) :=
  _leader_progress tr ≫= find tr.

(** *** [committed]

    Modelled from the spec: [index_t committed(index_t prev_commit_idx)]
    is declared in the header and defined in [tracker.cc], which is not
    part of the sources.  The design document: gather the [match_idx] of
    the members of a voter set, the leader counting with the last index of
    the log when it has no entry in the progress map; the candidate is the
    largest index that a strict majority, [n / 2 + 1] of the [n] voters,
    has reached; under a joint configuration the same is computed over
    [_previous_voters] and the smaller of the two is taken; the result is
    never smaller than [prev_commit_idx].

    The tracker does not hold the log, so its last index is the parameter
    [last_log_idx].  When no index has a majority behind it (an empty
    voter set, voters without an entry) there is no candidate, and what
    is left of the document's description is its lower bound: the result
    is [prev_commit_idx]. *)

Variable last_log_idx : Z.

(** The match index that a voter contributes. *)
Definition voter_match (tr : t) (voter : server_id) : option Z :=
  match find tr voter with
  | Some fp => Some (follower_progress.match_idx fp)
  | None => if decide (voter = _my_id tr) then Some last_log_idx else None
  end.

Definition gather (tr : t) (voters : gset server_id) : list Z :=
  omap (voter_match tr) (elements voters).

(** A strict majority of a voter set. *)
Definition quorum (voters : gset server_id) : nat := (size voters / 2 + 1)%nat.

(** How many of the gathered indices are at [X] or beyond. *)
Definition count_reaching (X : Z) (ms : list Z) : nat :=
  length (filter (fun m => X ≤ m) ms).

Definition max_index (ms : list Z) : option Z :=
  foldr (fun m acc => Some (from_option (Z.max m) m acc)) None ms.

(** The largest index that [q] of the gathered indices have reached.  The
    count changes at the gathered indices only, so these are the
    candidates to try. *)
Definition majority_index (q : nat) (ms : list Z) : option Z :=
  max_index (filter (fun X => (q ≤ count_reaching X ms)%nat) ms).

(** The candidate commit index of the simple or joint quorum, if each
    voter set in use has an index with a majority behind it. *)
Definition candidate (tr : t) : option Z :=
  match majority_index (quorum (_current_voters tr))
                       (gather tr (_current_voters tr)) with
  | None => None
  | Some current =>
      if decide (_previous_voters tr = ∅) then Some current
      else
        match majority_index (quorum (_previous_voters tr))
                             (gather tr (_previous_voters tr)) with
        | None => None
        | Some previous => Some (Z.min current previous)
        end
  end.

(** The candidate, never smaller than [prev_commit_idx]. *)
Definition committed (tr : t) (prev_commit_idx : Z) : Z :=
  match candidate tr with
  | None => prev_commit_idx
  | Some index => Z.max prev_commit_idx index
  end.

(** *** The statement of the design document, on the voter sets *)

(** Voter [voter] has reached index [X]. *)
Definition reaches (tr : t) (X : Z) (voter : server_id) : Prop :=
  match voter_match tr voter with
  | Some m => X ≤ m
  | None => False
  end.

#[global] Instance reaches_dec tr X voter : Decision (reaches tr X voter).
Proof. unfold reaches. destruct (voter_match tr voter); apply _. Defined.

(** A strict majority of [voters] has reached index [X]. *)
Definition majority_reaches (tr : t) (voters : gset server_id) (X : Z) : Prop :=
  (quorum voters ≤ size (filter (reaches tr X) voters))%nat.

(** [c] is the largest index that a strict majority of [voters] has
    reached. *)
Definition largest_majority_index (tr : t) (voters : gset server_id) (c : Z) : Prop :=
  majority_reaches tr voters c ∧ ∀ X, majority_reaches tr voters X → X ≤ c.

End tracker.

Arguments t _ {_ _}.

End tracker.

(** ** Sample clusters

    The clusters of the design document's test scenarios, with [nat] as
    the server id and a 64-bit [index_t]. *)

Module samples.

(** Servers 1 to 5, all voting. *)
Definition five_voters : election_tracker.server_address_set nat :=
  map (fun i => election_tracker.mk_address i true) [1; 2; 3; 4; 5]%nat.

(** Servers 1 to 3, none voting. *)
Definition three_observers : election_tracker.server_address_set nat :=
  map (fun i => election_tracker.mk_address i false) [1; 2; 3]%nat.

(** An election among [five_voters] after the given votes. *)
Definition election (calls : list (nat * bool)) : election_tracker.t nat :=
  election_tracker.register_votes (election_tracker.make five_voters) calls.

Definition three_grants : list (nat * bool) := [(1, true); (2, true); (3, true)]%nat.
Definition three_denials : list (nat * bool) := [(1, false); (2, false); (3, false)]%nat.
Definition one_each : list (nat * bool) := [(1, true); (2, false)]%nat.

(** The progress of follower [i], replicated up to [m]. *)
Definition replicated (i : nat) (m : Z) : follower_progress.t nat :=
  follower_progress.accepted 64 (follower_progress.make i 1) m.

(** A tracker led by server 1 whose progress map holds servers 1 to 5
    with the given match indices. *)
Definition cluster (ms : list Z) (current previous : list nat) : tracker.t nat :=
  {| tracker.progress :=
       list_to_map (zip_with (fun i m => (i, replicated i m)) [1; 2; 3; 4; 5]%nat ms);
     tracker._my_id := 1%nat;
     tracker._current_voters := list_to_set current;
     tracker._previous_voters := list_to_set previous;
     tracker._leader_progress := Some 1%nat |}.

End samples.

(** ** Vocabulary for the histories of an election *)

Section election_history.
Context `{Countable server_id}.

(** The vote that the earliest call from [voter] carries, if there is
    such a call. *)
Fixpoint first_vote (calls : list (server_id * bool)) (voter : server_id) : option bool :=
  match calls with
  | [] => None
  | c :: calls => if decide (c.1 = voter) then Some c.2 else first_vote calls voter
  end.

(** The recorded votes that were not grants. *)
Definition denials (et : election_tracker.t server_id) : Z :=
  set_size (election_tracker._responded et) - election_tracker._granted et.

(** The eligible voters that have not responded yet. *)
Definition outstanding (et : election_tracker.t server_id) : list server_id :=
  elements (election_tracker._suffrage et ∖ election_tracker._responded et).

(** The same vote from each of [voters], in the order of the list. *)
Definition cast (vote : bool) (voters : list server_id) : list (server_id * bool) :=
  map (fun voter => (voter, vote)) voters.

End election_history.

(** * Properties *)

(** ** Machine integers *)

Lemma size_add_exact (a b : Z) :
  0 ≤ a → 0 ≤ b → a + b ≤ SIZE_MAX → size_add a b = a + b.
Proof.
  intros Ha Hb Hab. unfold size_add. apply Z.mod_small.
  unfold SIZE_MAX in Hab. lia.
Qed.

Lemma size_add_bounds (a b : Z) :
  0 ≤ a → 0 ≤ b → 0 ≤ size_add a b ≤ a + b.
Proof.
  intros Ha Hb. unfold size_add, size_t_modulus. split.
  - apply Z.mod_pos_bound. lia.
  - apply Z.mod_le; lia.
Qed.

Lemma size_sub_exact (a b : Z) :
  0 ≤ b → b ≤ a → a ≤ SIZE_MAX → size_sub a b = a - b.
Proof.
  intros Hb Hba Ha. unfold size_sub. apply Z.mod_small.
  unfold SIZE_MAX in Ha. lia.
Qed.

Lemma set_size_nonneg `{Countable K} (s : gset K) : 0 ≤ set_size s.
Proof. unfold set_size. lia. Qed.

(** ** [follower_progress] *)

Section follower_progress_facts.
Import follower_progress.
Context {server_id : Type}.
Variable index_bits : N.

#[local] Abbreviation fp_t := (follower_progress.t server_id).
#[local] Abbreviation accepted := (follower_progress.accepted index_bits).
#[local] Abbreviation accepted_all := (follower_progress.accepted_all index_bits).
#[local] Abbreviation index_add := (follower_progress.index_add index_bits).
#[local] Abbreviation index_modulus := (follower_progress.index_modulus index_bits).

Lemma index_modulus_pos : 0 < index_modulus.
Proof. unfold follower_progress.index_modulus. apply Z.pow_pos_nonneg; lia. Qed.

(** Below the largest value of [index_t] the successor does not wrap. *)
Lemma index_add_succ (idx : Z) :
  0 ≤ idx → idx < index_modulus - 1 → index_add idx 1 = idx + 1.
Proof.
  intros H0 H1. unfold follower_progress.index_add. apply Z.mod_small. lia.
Qed.

Lemma index_add_succ_gt (idx : Z) :
  idx < index_modulus - 1 → idx < index_add idx 1.
Proof.
  intros H1. destruct (Z_lt_le_dec idx 0) as [Hneg | Hpos].
  - pose proof (Z.mod_pos_bound (idx + 1) index_modulus index_modulus_pos).
    unfold follower_progress.index_add. lia.
  - rewrite index_add_succ by lia. lia.
Qed.

Lemma accepted_all_app (fp : fp_t) (before after : list Z) :
  accepted_all fp (before ++ after) = accepted_all (accepted_all fp before) after.
Proof. apply foldl_app. Qed.

Lemma accepted_all_ge (idxs : list Z) :
  ∀ fp : fp_t,
    match_idx fp ≤ match_idx (accepted_all fp idxs) ∧
    next_idx fp ≤ next_idx (accepted_all fp idxs).
Proof.
  induction idxs as [| idx idxs IH]; intros fp; simpl.
  - lia.
  - destruct (IH (accepted fp idx)) as [Hm Hn]. simpl in Hm, Hn. lia.
Qed.

(** C4 (amended).  After [accepted(idx)], [match_idx] is the larger of
    its old value and [idx]; [next_idx] is the larger of [idx + 1] and its
    old value as long as [idx] is not the largest value of [index_t], for
    which [idx + 1] wraps to 0; and along any sequence of [accepted]
    calls, whatever the order of the indices, both fields never decrease
    from one point of the sequence to a later one. *)
Theorem accepted_max_and_monotone (fp : fp_t) (idx : Z) (before after : list Z) :
  match_idx (accepted fp idx) = Z.max (match_idx fp) idx ∧
  (0 ≤ idx < index_modulus - 1 →
   next_idx (accepted fp idx) = Z.max (idx + 1) (next_idx fp)) ∧
  match_idx (accepted_all fp before) ≤ match_idx (accepted_all fp (before ++ after)) ∧
  next_idx (accepted_all fp before) ≤ next_idx (accepted_all fp (before ++ after)).
Proof.
  split; [simpl; lia |]. split.
  - intros [Hpos Hidx]. simpl. by rewrite index_add_succ.
  - rewrite accepted_all_app. apply accepted_all_ge.
Qed.

Lemma accepted_match_before_next (fp : fp_t) (idx : Z) :
  idx < index_modulus - 1 →
  match_before_next fp → match_before_next (accepted fp idx).
Proof.
  unfold match_before_next. intros Hidx Hinv. simpl.
  pose proof (index_add_succ_gt idx Hidx). lia.
Qed.

(** C5 (amended).  A [follower_progress] constructed with a strictly
    positive [next_idx] satisfies [match_idx < next_idx], and a call
    [accepted(idx)] preserves [match_idx < next_idx] as long as [idx] is
    not the largest value of [index_t], for which [idx + 1] wraps to 0. *)
Theorem accepted_keeps_match_before_next
    (id_arg : server_id) (next_idx_arg : Z) (fp : fp_t) (idx : Z) :
  0 < next_idx_arg →
  match_before_next fp →
  idx < index_modulus - 1 →
  match_before_next (make id_arg next_idx_arg) ∧
  match_before_next (accepted fp idx).
Proof.
  intros Hpos Hinv Hidx. split.
  - unfold match_before_next. simpl. exact Hpos.
  - by apply accepted_match_before_next.
Qed.

(** At the largest value of an [index_t] of any width of one bit or more
    the invariant is lost: [idx + 1] wraps to 0. *)
Lemma accepted_at_largest_index (i : server_id) :
  index_bits ≠ 0%N →
  ¬ match_before_next (accepted (make i 1) (index_modulus - 1)).
Proof.
  intros Hbits. unfold match_before_next. simpl.
  unfold follower_progress.index_add.
  replace (index_modulus - 1 + 1) with index_modulus by lia.
  rewrite Z.mod_same by (pose proof index_modulus_pos; lia).
  assert (2 ^ 1 ≤ index_modulus).
  { unfold follower_progress.index_modulus. apply Z.pow_le_mono_r; lia. }
  lia.
Qed.

(** The invariant along a whole sequence of calls. *)
Lemma accepted_all_match_before_next (idxs : list Z) :
  ∀ fp : fp_t,
    Forall (fun idx => idx < index_modulus - 1) idxs →
    match_before_next fp → match_before_next (accepted_all fp idxs).
Proof.
  induction idxs as [| idx idxs IH]; intros fp Hall Hinv; simpl; [done |].
  inversion Hall; subst. apply IH; [done |].
  by apply accepted_match_before_next.
Qed.

(** C6.  [can_send_to()] is true in state [PROBE] iff [probe_sent] is
    false, in state [PIPELINE] iff [in_flight < max_in_flight], with
    [max_in_flight = 10], and false in state [SNAPSHOT]. *)
Theorem can_send_to_by_state
    (i : server_id) (next mtch commit : Z) (sent : bool) (flying : Z) :
  (can_send_to (mk i next mtch commit PROBE sent flying) = true ↔ sent = false) ∧
  (can_send_to (mk i next mtch commit PIPELINE sent flying) = true
     ↔ flying < max_in_flight) ∧
  can_send_to (mk i next mtch commit SNAPSHOT sent flying) = false ∧
  max_in_flight = 10.
Proof.
  unfold can_send_to. simpl. repeat split.
  - by destruct sent.
  - by intros ->.
  - apply Z.ltb_lt.
  - apply Z.ltb_lt.
Qed.

End follower_progress_facts.

(** C5: the claim as stated fails on a 64-bit [index_t].  A progress
    constructed with [next_idx = 1] satisfies the invariant; after
    [accepted(2^64 - 1)], [match_idx] is [2^64 - 1] while [idx + 1] has
    wrapped to 0 and [next_idx] is still 1. *)
Lemma accepted_breaks_match_before_next_at_max :
  let fp := follower_progress.make 7%nat 1 in
  let idx := 2 ^ 64 - 1 in
  0 < follower_progress.next_idx fp ∧
  0 ≤ idx < follower_progress.index_modulus 64 ∧
  follower_progress.match_before_next fp ∧
  follower_progress.accepted 64 fp idx
    = follower_progress.mk 7%nat 1 (2 ^ 64 - 1) 0 follower_progress.PROBE false 0 ∧
  ¬ follower_progress.match_before_next (follower_progress.accepted 64 fp idx).
Proof.
  unfold follower_progress.match_before_next. vm_compute.
  repeat split; discriminate.
Qed.

(** C4: the claim as stated fails on a 64-bit [index_t].  After
    [accepted(2^64 - 1)] on a progress with [next_idx = 1], [idx + 1] has
    wrapped to 0 and [next_idx] is still 1, not [max(idx + 1, 1) = 2^64]. *)
Lemma accepted_next_idx_wraps_at_max :
  let fp := follower_progress.make 7%nat 1 in
  let idx := 2 ^ 64 - 1 in
  0 ≤ idx < follower_progress.index_modulus 64 ∧
  follower_progress.next_idx (follower_progress.accepted 64 fp idx) = 1 ∧
  Z.max (idx + 1) (follower_progress.next_idx fp) = 2 ^ 64 ∧
  follower_progress.next_idx (follower_progress.accepted 64 fp idx)
  ≠ Z.max (idx + 1) (follower_progress.next_idx fp).
Proof. vm_compute. repeat split; discriminate. Qed.

Lemma accepted_max_and_monotone_witness :
  let fp := follower_progress.make 7%nat 3 in
  follower_progress.match_idx (follower_progress.accepted 64 fp 5) = Z.max 0 5 ∧
  follower_progress.next_idx (follower_progress.accepted 64 fp 5) = Z.max (5 + 1) 3 ∧
  follower_progress.next_idx (follower_progress.accepted_all 64 fp [9])
  ≤ follower_progress.next_idx (follower_progress.accepted_all 64 fp ([9] ++ [2; 4])).
Proof.
  intros fp.
  destruct (accepted_max_and_monotone 64 fp 5 [9] [2; 4]) as (Hmatch & Hnext & _ & Hmono).
  split; [exact Hmatch |]. split; [| exact Hmono].
  apply Hnext. vm_compute. split; [discriminate | reflexivity].
Defined.

Lemma accepted_keeps_match_before_next_witness :
  let fp := follower_progress.make 7%nat 3 in
  follower_progress.match_before_next (follower_progress.make 7%nat 3) ∧
  follower_progress.match_before_next (follower_progress.accepted 64 fp 5).
Proof.
  apply (accepted_keeps_match_before_next 64 7%nat 3 (follower_progress.make 7%nat 3) 5).
  - lia.
  - unfold follower_progress.match_before_next. simpl. lia.
  - vm_compute. reflexivity.
Defined.

(** ** [election_tracker] *)

Section election_tracker_facts.
Import election_tracker.
Context `{Countable server_id}.

#[local] Abbreviation et_t := (election_tracker.t server_id).
#[local] Abbreviation address := (election_tracker.server_address server_id).

(** *** The constructor *)

Lemma suffrage_loop_elem_of (configuration : list address) :
  ∀ (s : gset server_id) (x : server_id),
    x ∈ foldl (fun s a => if can_vote a then {[ id a ]} ∪ s else s) s configuration
    ↔ x ∈ s ∨ ∃ a, a ∈ configuration ∧ can_vote a = true ∧ id a = x.
Proof.
  induction configuration as [| a configuration IH]; intros s x; simpl.
  - split; [by left |]. intros [Hx | (a & Ha & _)]; [done |]. by apply elem_of_nil in Ha.
  - rewrite IH. split.
    + intros [Hx | (b & Hb & Hvote & Hid)].
      * destruct (can_vote a) eqn:Hvote; [| by left].
        apply elem_of_union in Hx as [Hx | Hx]; [| by left].
        apply elem_of_singleton in Hx. right. exists a. split; [left |]; done.
      * right. exists b. split; [by right | done].
    + intros [Hx | (b & Hb & Hvote & Hid)].
      * left. destruct (can_vote a); [set_solver | done].
      * apply elem_of_cons in Hb as [-> | Hb].
        -- left. rewrite Hvote. set_solver.
        -- right. by exists b.
Qed.

Lemma suffrage_loop_size (configuration : list address) :
  ∀ s : gset server_id,
    (size (foldl (fun s a => if can_vote a then {[ id a ]} ∪ s else s) s configuration)
     ≤ size s + length configuration)%nat.
Proof.
  induction configuration as [| a configuration IH]; intros s; simpl; [lia |].
  etrans; [apply IH |].
  destruct (can_vote a); [| lia].
  rewrite size_union_alt, size_singleton.
  assert (s ∖ {[ id a ]} ⊆ s) as Hsub by set_solver.
  apply subseteq_size in Hsub. lia.
Qed.

Lemma make_elem_of_suffrage (configuration : list address) (x : server_id) :
  x ∈ _suffrage (make configuration)
  ↔ ∃ a, a ∈ configuration ∧ can_vote a = true ∧ id a = x.
Proof.
  unfold make. simpl. rewrite suffrage_loop_elem_of. set_solver.
Qed.

Lemma make_counted (configuration : list address) : counted (make configuration).
Proof.
  unfold counted, make. cbn [_responded _granted _suffrage]. split; [set_solver |].
  unfold set_size. rewrite size_empty. lia.
Qed.

Lemma make_valid (configuration : list address) :
  Z.of_nat (length configuration) ≤ SIZE_MAX → valid (make configuration).
Proof.
  intros Hlen. split; [apply make_counted |].
  pose proof (suffrage_loop_size configuration ∅) as Hsize.
  rewrite size_empty in Hsize. unfold make, set_size. cbn [_suffrage]. lia.
Qed.

(** *** [register_vote] *)

Lemma register_vote_suffrage (et : et_t) (from : server_id) (granted : bool) :
  _suffrage (register_vote et from granted).1 = _suffrage et.
Proof. unfold register_vote. by case_decide. Qed.

Lemma register_vote_counted (et : et_t) (from : server_id) (granted : bool) :
  counted et → counted (register_vote et from granted).1.
Proof.
  unfold counted, register_vote. intros [Hsub Hgranted].
  case_decide as Hfrom; simpl; [| done].
  split; [set_solver |].
  case_bool_decide as Hnew.
  - assert (set_size ({[ from ]} ∪ _responded et) = set_size (_responded et) + 1) as ->.
    { unfold set_size. rewrite size_union by set_solver. rewrite size_singleton. lia. }
    pose proof (size_add_bounds (_granted et) (Z.b2z granted)).
    destruct granted; simpl in *; lia.
  - assert ({[ from ]} ∪ _responded et = _responded et) as ->; [| done].
    apply subseteq_union_1_L. set_solver.
Qed.

Lemma register_vote_valid (et : et_t) (from : server_id) (granted : bool) :
  valid et → valid (register_vote et from granted).1.
Proof.
  intros [Hcounted Hsize]. split; [by apply register_vote_counted |].
  by rewrite register_vote_suffrage.
Qed.

Lemma register_votes_suffrage (calls : list (server_id * bool)) :
  ∀ et : et_t, _suffrage (register_votes et calls) = _suffrage et.
Proof.
  induction calls as [| c calls IH]; intros et; simpl; [done |].
  unfold register_votes in *. simpl. by rewrite IH, register_vote_suffrage.
Qed.

Lemma register_votes_counted (calls : list (server_id * bool)) :
  ∀ et : et_t, counted et → counted (register_votes et calls).
Proof.
  induction calls as [| c calls IH]; intros et Hcounted; simpl; [done |].
  apply IH. by apply register_vote_counted.
Qed.

Lemma register_votes_valid (calls : list (server_id * bool)) (et : et_t) :
  valid et → valid (register_votes et calls).
Proof.
  intros [Hcounted Hsize]. split; [by apply register_votes_counted |].
  by rewrite register_votes_suffrage.
Qed.

(** Every tracker that the constructor and [register_vote] produce from a
    configuration that fits a container satisfies the class invariant, so
    the invariant has as many inhabitants as there are such histories. *)
Lemma reachable_valid (configuration : list address) (calls : list (server_id * bool)) :
  Z.of_nat (length configuration) ≤ SIZE_MAX →
  valid (register_votes (make configuration) calls).
Proof. intros Hlen. by apply register_votes_valid, make_valid. Qed.

Lemma counted_sizes (et : et_t) :
  counted et → 0 ≤ _granted et ≤ set_size (_responded et) ∧
               set_size (_responded et) ≤ set_size (_suffrage et).
Proof.
  intros [Hsub Hgranted]. split; [done |].
  unfold set_size. apply subseteq_size in Hsub. lia.
Qed.

(** *** [tally_votes] *)

(** C2.  [tally_votes()] returns [WON] if [granted >= |suffrage| / 2 + 1];
    otherwise [LOST] if [granted + (|suffrage| - |responded|)] is below
    [|suffrage| / 2 + 1]; otherwise [UNKNOWN].  The arithmetic of the
    statement is that of the integers: on a tracker that satisfies the
    class invariant no [size_t] operation of the code wraps, and the
    assertion holds. *)
Theorem tally_votes_by_quorum (et : et_t) :
  valid et →
  let quorum := set_size (_suffrage et) / 2 + 1 in
  let outstanding := set_size (_suffrage et) - set_size (_responded et) in
  tally_votes et =
    Some (if decide (quorum ≤ _granted et) then WON
          else if decide (_granted et + outstanding < quorum) then LOST
          else UNKNOWN).
Proof.
  intros [Hcounted Hsize] quorum outstanding.
  destruct (counted_sizes et Hcounted) as [Hgranted Hresponded].
  pose proof (set_size_nonneg (_suffrage et)) as Hs0.
  pose proof (set_size_nonneg (_responded et)) as Hr0.
  assert (0 ≤ set_size (_suffrage et) / 2 ≤ set_size (_suffrage et)) as Hhalf.
  { split; [apply Z.div_pos; lia | apply Z.div_le_upper_bound; lia]. }
  assert (set_size (_suffrage et) / 2 + 1 ≤ SIZE_MAX) as Hquorum.
  { assert (set_size (_suffrage et) / 2 ≤ SIZE_MAX / 2) by (apply Z.div_le_mono; lia).
    assert (SIZE_MAX / 2 + 1 ≤ SIZE_MAX) by (vm_compute; discriminate). lia. }
  unfold tally_votes.
  rewrite (size_add_exact (set_size (_suffrage et) / 2) 1) by lia.
  rewrite size_sub_exact by lia.
  rewrite size_add_exact by lia.
  fold quorum outstanding.
  destruct (Z.leb_spec quorum (_granted et)) as [Hwon | Hnot].
  - by rewrite decide_True.
  - rewrite decide_False by lia.
    destruct (Z.leb_spec (set_size (_responded et)) (set_size (_suffrage et))); [| lia].
    destruct (Z.leb_spec quorum (_granted et + outstanding)).
    + by rewrite decide_False by lia.
    + by rewrite decide_True by lia.
Qed.

(** C7.  A vote from an id that [responded] already holds changes neither
    [granted] nor [responded], whatever the vote, and [tally_votes()]
    gives the same result after it as before it. *)
Theorem register_vote_duplicate (et : et_t) (from : server_id) (granted : bool) :
  from ∈ _responded et →
  let et' := (register_vote et from granted).1 in
  _granted et' = _granted et ∧
  _responded et' = _responded et ∧
  tally_votes et' = tally_votes et.
Proof.
  intros Hfrom et'.
  assert (et' = et) as ->; [| done].
  unfold et', register_vote. case_decide; [| done]. simpl.
  rewrite bool_decide_eq_false_2 by (intros Hnot; by apply Hnot).
  assert ({[ from ]} ∪ _responded et = _responded et) as ->.
  { apply subseteq_union_1_L. set_solver. }
  by destruct et.
Qed.

(** C8.  A vote from an id outside [suffrage] returns [false] and leaves
    the tracker as it was, whatever the vote. *)
Theorem register_vote_unknown_voter (et : et_t) (from : server_id) (granted : bool) :
  from ∉ _suffrage et →
  register_vote et from granted = (et, false).
Proof. intros Hfrom. unfold register_vote. by rewrite decide_False. Qed.

(** C9.  After the constructor and any sequence of [register_vote] calls,
    [granted <= |responded| <= |suffrage|]; so the assertion of
    [tally_votes] holds (the call does not fail) and
    [|suffrage| - |responded|] does not go below zero. *)
Theorem register_votes_counts_ordered
    (configuration : list address) (calls : list (server_id * bool)) :
  let et := register_votes (make configuration) calls in
  0 ≤ _granted et ≤ set_size (_responded et) ∧
  set_size (_responded et) ≤ set_size (_suffrage et) ∧
  0 ≤ set_size (_suffrage et) - set_size (_responded et) ∧
  is_Some (tally_votes et).
Proof.
  intros et.
  assert (counted et) as Hcounted by apply register_votes_counted, make_counted.
  destruct (counted_sizes et Hcounted) as [Hgranted Hresponded].
  repeat split; try lia.
  unfold tally_votes. case_match; [by eexists |].
  destruct (Z.leb_spec (set_size (_responded et)) (set_size (_suffrage et)));
    [by eexists | lia].
Qed.

(** C10.  When no member of the configuration has [can_vote] set, the
    suffrage is empty and stays so; [tally_votes()] then returns [LOST]
    without failing the assertion: [granted] is 0 and no voter is
    outstanding, while the quorum is 1. *)
Theorem tally_votes_empty_suffrage
    (configuration : list address) (calls : list (server_id * bool)) :
  Forall (fun a => can_vote a = false) configuration →
  let et := register_votes (make configuration) calls in
  _suffrage et = ∅ ∧
  _granted et = 0 ∧
  set_size (_suffrage et) - set_size (_responded et) = 0 ∧
  size_add (set_size (_suffrage et) / 2) 1 = 1 ∧
  tally_votes et = Some LOST.
Proof.
  intros Hnone et.
  assert (_suffrage et = ∅) as Hempty.
  { unfold et. rewrite register_votes_suffrage. apply set_eq. intros x.
    rewrite make_elem_of_suffrage. split; [| set_solver].
    intros (a & Ha & Hvote & _). rewrite Forall_forall in Hnone.
    apply Hnone in Ha. congruence. }
  assert (counted et) as Hcounted by apply register_votes_counted, make_counted.
  destruct Hcounted as [Hsub Hgranted]. rewrite Hempty in Hsub.
  assert (_responded et = ∅) as Hnobody by set_solver.
  unfold tally_votes. rewrite Hempty, Hnobody in *.
  unfold set_size in *. rewrite size_empty in *.
  assert (_granted et = 0) as -> by lia.
  repeat split.
Qed.

End election_tracker_facts.

(** ** [votes] *)

Section votes_facts.
Context `{Countable server_id}.

(** C3.  Without a previous tracker, [votes::tally_votes()] is
    [current.tally_votes()].  With one, and both tallies passing their
    assertion, the result is [WON] exactly when both report [WON], it is
    [LOST] when either reports [LOST], and [UNKNOWN] otherwise. *)
Theorem votes_tally_votes_joint
    (voters : election_tracker.server_address_set server_id)
    (current previous : election_tracker.t server_id) (c p : vote_result) :
  election_tracker.tally_votes current = Some c →
  election_tracker.tally_votes previous = Some p →
  votes.tally_votes (votes.mk voters current None)
    = election_tracker.tally_votes current ∧
  (votes.tally_votes (votes.mk voters current (Some previous)) = Some WON
     ↔ c = WON ∧ p = WON) ∧
  votes.tally_votes (votes.mk voters current (Some previous))
    = Some (if decide (c = WON ∧ p = WON) then WON
            else if decide (c = LOST ∨ p = LOST) then LOST
            else UNKNOWN).
Proof.
  intros Hc Hp. unfold votes.tally_votes. simpl. rewrite Hc, Hp.
  split; [done |].
  destruct c, p; simpl; (split; [split; [intros [=] | intros [[=] [=]]] |]);
    repeat case_decide; naive_solver.
Qed.

End votes_facts.

(** ** [tracker] *)

Section majority_index_facts.
Import tracker.

Lemma max_index_cons (m : Z) (ms : list Z) :
  max_index (m :: ms) = Some (from_option (Z.max m) m (max_index ms)).
Proof. reflexivity. Qed.

Lemma max_index_is_max (ms : list Z) (c : Z) :
  max_index ms = Some c → c ∈ ms ∧ ∀ m, m ∈ ms → m ≤ c.
Proof.
  revert c. induction ms as [| m ms IH]; intros c; [done |].
  rewrite max_index_cons. intros [= <-].
  destruct (max_index ms) as [c' |] eqn:Hmax; simpl.
  - destruct (IH c' eq_refl) as [Hin Hle]. split.
    + destruct (Z.max_spec m c') as [[_ ->] | [_ ->]]; [by right | by left].
    + intros m' [-> | Hm']%elem_of_cons; [lia |]. apply Hle in Hm'. lia.
  - destruct ms as [| m' ms]; [| done]. split; [by left |].
    intros m' [-> | Hm']%elem_of_cons; [lia |]. by apply elem_of_nil in Hm'.
Qed.

Lemma max_index_is_Some (ms : list Z) (m : Z) : m ∈ ms → is_Some (max_index ms).
Proof. destruct ms; [by intros ?%elem_of_nil | by eexists]. Qed.

(** A non-empty list of indices has a least element. *)
Lemma least_index (ms : list Z) :
  ms ≠ [] → ∃ m0, m0 ∈ ms ∧ ∀ m, m ∈ ms → m0 ≤ m.
Proof.
  induction ms as [| m ms IH]; [done |]. intros _.
  destruct ms as [| m' ms].
  - exists m. split; [by left |]. intros ? [-> | ?%elem_of_nil]%elem_of_cons; [lia | done].
  - destruct IH as (m0 & Hin & Hle); [done |].
    destruct (Z_le_gt_dec m m0).
    + exists m. split; [by left |].
      intros x [-> | Hx]%elem_of_cons; [lia |]. apply Hle in Hx. lia.
    + exists m0. split; [by right |].
      intros x [-> | Hx]%elem_of_cons; [lia |]. by apply Hle.
Qed.

Lemma length_filter_impl {A} (P Q : A → Prop)
    `{!∀ x, Decision (P x), !∀ x, Decision (Q x)} (l : list A) :
  (∀ x, x ∈ l → P x → Q x) → (length (filter P l) ≤ length (filter Q l))%nat.
Proof.
  induction l as [| x l IH]; intros Himpl; [done |].
  rewrite !filter_cons.
  assert (length (filter P l) ≤ length (filter Q l))%nat as Hrec.
  { apply IH. intros y Hy. apply Himpl. by right. }
  destruct (decide (P x)) as [HP | HP].
  - rewrite decide_True by (apply Himpl; [by left | done]). simpl. lia.
  - destruct (decide (Q x)); simpl; lia.
Qed.

(** The indices at [X] or beyond have a least one, and it is reached by
    as many as [X] is. *)
Lemma count_reaching_least (X : Z) (ms : list Z) :
  (1 ≤ count_reaching X ms)%nat →
  ∃ m0, m0 ∈ ms ∧ X ≤ m0 ∧ (count_reaching X ms ≤ count_reaching m0 ms)%nat.
Proof.
  unfold count_reaching. intros Hsome.
  destruct (least_index (filter (fun m => X ≤ m) ms)) as (m0 & Hin & Hle).
  { intros Hnil. rewrite Hnil in Hsome. simpl in Hsome. lia. }
  apply list_elem_of_filter in Hin as [HX Hin].
  exists m0. repeat split; [done .. |].
  apply length_filter_impl. intros m Hm HXm.
  apply Hle. by apply list_elem_of_filter.
Qed.

Lemma majority_index_largest (q : nat) (ms : list Z) (c : Z) :
  (1 ≤ q)%nat →
  majority_index q ms = Some c →
  (q ≤ count_reaching c ms)%nat ∧ ∀ X, (q ≤ count_reaching X ms)%nat → X ≤ c.
Proof.
  unfold majority_index. intros Hq Hmax.
  apply max_index_is_max in Hmax as [Hin Hle].
  apply list_elem_of_filter in Hin as [Hc _]. split; [done |].
  intros X HX.
  destruct (count_reaching_least X ms) as (m0 & Hin0 & HX0 & Hcount); [lia |].
  assert (m0 ≤ c); [| lia].
  apply Hle, list_elem_of_filter. split; [lia | done].
Qed.

Lemma majority_index_is_Some (q : nat) (ms : list Z) (X : Z) :
  (1 ≤ q)%nat → (q ≤ count_reaching X ms)%nat → is_Some (majority_index q ms).
Proof.
  intros Hq HX. unfold majority_index.
  destruct (count_reaching_least X ms) as (m0 & Hin0 & HX0 & Hcount); [lia |].
  apply (max_index_is_Some _ m0), list_elem_of_filter. split; [lia | done].
Qed.

End majority_index_facts.

Section tracker_facts.
Import tracker.
Context `{Countable server_id}.
Variable last_log_idx : Z.

#[local] Abbreviation tracker_t := (tracker.t server_id).
#[local] Abbreviation voter_match := (tracker.voter_match last_log_idx).
#[local] Abbreviation gather := (tracker.gather last_log_idx).
#[local] Abbreviation reaches := (tracker.reaches last_log_idx).
#[local] Abbreviation majority_reaches := (tracker.majority_reaches last_log_idx).
#[local] Abbreviation largest_majority_index :=
  (tracker.largest_majority_index last_log_idx).
#[local] Abbreviation committed := (tracker.committed last_log_idx).

Lemma quorum_pos (voters : gset server_id) : (1 ≤ quorum voters)%nat.
Proof. unfold quorum. lia. Qed.

Lemma size_filter_elements (P : server_id → Prop) `{!∀ x, Decision (P x)}
    (voters : gset server_id) :
  size (filter P voters) = length (filter P (elements voters)).
Proof.
  unfold filter at 1, set_filter.
  apply size_list_to_set, NoDup_filter, NoDup_elements.
Qed.

Lemma count_reaching_omap (tr : tracker_t) (X : Z) (l : list server_id) :
  count_reaching X (omap (voter_match tr) l) = length (filter (reaches tr X) l).
Proof.
  unfold count_reaching. induction l as [| v l IH]; [done |].
  rewrite (filter_cons (reaches tr X)). cbn [omap list_omap].
  destruct (decide (reaches tr X v)) as [Hv | Hv]; unfold tracker.reaches in Hv;
    destruct (tracker.voter_match last_log_idx tr v) as [m |]; try done.
  - rewrite filter_cons, decide_True by done. simpl. by rewrite IH.
  - by rewrite filter_cons, decide_False.
Qed.

(** The count on the gathered indices is the number of voters that have
    reached the index. *)
Lemma count_reaching_gather (tr : tracker_t) (voters : gset server_id) (X : Z) :
  count_reaching X (gather tr voters) = size (filter (reaches tr X) voters).
Proof.
  unfold tracker.gather. by rewrite count_reaching_omap, size_filter_elements.
Qed.

Lemma majority_index_gather (tr : tracker_t) (voters : gset server_id) :
  (∃ X, majority_reaches tr voters X) →
  ∃ c, majority_index (quorum voters) (gather tr voters) = Some c ∧
       largest_majority_index tr voters c.
Proof.
  intros [X HX]. unfold tracker.majority_reaches in HX.
  rewrite <- count_reaching_gather in HX.
  destruct (majority_index_is_Some _ _ X (quorum_pos voters) HX) as [c Hc].
  exists c. split; [done |].
  destruct (majority_index_largest _ _ c (quorum_pos voters) Hc) as [Hreach Hmax].
  unfold tracker.largest_majority_index, tracker.majority_reaches.
  split; [by rewrite <- count_reaching_gather |].
  intros Y HY. apply Hmax. by rewrite count_reaching_gather.
Qed.

(** The result of [committed] is never smaller than [prev_commit_idx]. *)
Lemma committed_ge_prev_commit_idx (tr : tracker_t) (prev_commit_idx : Z) :
  prev_commit_idx ≤ committed tr prev_commit_idx.
Proof. unfold tracker.committed. destruct (tracker.candidate _ tr); lia. Qed.

(** C1 (amended).  Whenever some index has a strict majority of the
    current voters behind it (and, under a joint configuration, some
    index has one of the previous voters), [committed] returns the larger
    of [prev_commit_idx] and the candidate index, the candidate being the
    largest index [X] such that [|current_voters| / 2 + 1] of the current
    voters have [match_idx >= X] if [previous_voters] is empty, and
    otherwise the minimum of that index and the same index over
    [previous_voters]. *)
Theorem committed_max_of_prev_and_majority (tr : tracker_t) (prev_commit_idx : Z) :
  (∃ X, majority_reaches tr (_current_voters tr) X) →
  (_previous_voters tr ≠ ∅ → ∃ X, majority_reaches tr (_previous_voters tr) X) →
  ∃ current,
    largest_majority_index tr (_current_voters tr) current ∧
    (_previous_voters tr = ∅ →
       committed tr prev_commit_idx = Z.max prev_commit_idx current) ∧
    (_previous_voters tr ≠ ∅ →
       ∃ previous,
         largest_majority_index tr (_previous_voters tr) previous ∧
         committed tr prev_commit_idx
         = Z.max prev_commit_idx (Z.min current previous)).
Proof.
  intros Hcur Hprev.
  destruct (majority_index_gather tr _ Hcur) as (c & Hc & Hlargest).
  exists c. split; [done |]. unfold tracker.committed, tracker.candidate.
  rewrite Hc. split.
  - intros Hempty. by rewrite decide_True.
  - intros Hjoint. rewrite decide_False by done.
    destruct (majority_index_gather tr _ (Hprev Hjoint)) as (p & Hp & Hlargest').
    exists p. by rewrite Hp.
Qed.

(** The largest index with a majority is unique, so the theorem above
    determines the result. *)
Lemma largest_majority_index_unique (tr : tracker_t) (voters : gset server_id) (c c' : Z) :
  largest_majority_index tr voters c → largest_majority_index tr voters c' → c = c'.
Proof. intros [Hc Hmax] [Hc' Hmax']. apply Hmax' in Hc. apply Hmax in Hc'. lia. Qed.

Lemma length_omap_total {A B} (f : A → option B) (l : list A) :
  (∀ x, x ∈ l → is_Some (f x)) → length (omap f l) = length l.
Proof.
  induction l as [| x l IH]; intros Hall; [done |]. cbn [omap list_omap].
  destruct (Hall x) as [y ->]; [by left |]. cbn [length]. f_equal.
  apply IH. intros z Hz. apply Hall. by right.
Qed.

(** Under the invariant of the data model (every voter has an entry in
    the progress map, the leader possibly excepted) a non-empty voter set
    always has an index with a majority behind it. *)
Lemma majority_reaches_exists (tr : tracker_t) (voters : gset server_id) :
  voters ≠ ∅ →
  (∀ v, v ∈ voters → is_Some (voter_match tr v)) →
  ∃ X, majority_reaches tr voters X.
Proof.
  intros Hne Hall.
  assert (length (gather tr voters) = size voters) as Hlen.
  { unfold tracker.gather. rewrite length_omap_total; [done |].
    intros v Hv. apply Hall. by apply elem_of_elements. }
  destruct (least_index (gather tr voters)) as (m0 & _ & Hle).
  { intros Hnil. rewrite Hnil in Hlen. simpl in Hlen.
    symmetry in Hlen. by apply size_empty_iff, leibniz_equiv in Hlen. }
  exists m0. unfold tracker.majority_reaches.
  rewrite <- count_reaching_gather. unfold count_reaching.
  assert (length (gather tr voters)
          ≤ length (filter (fun m => (m0 ≤ m)%Z) (gather tr voters)))%nat as Hcount.
  { generalize (gather tr voters) Hle. clear. intros ms Hle.
    induction ms as [| m ms IH]; [done |].
    rewrite filter_cons_True by (apply Hle; by left). simpl.
    apply le_n_S, IH. intros m' Hm'. apply Hle. by right. }
  unfold quorum. rewrite Hlen in Hcount.
  assert (size voters ≠ 0%nat) as Hpos.
  { intros Hzero. by apply size_empty_iff, leibniz_equiv in Hzero. }
  pose proof (Nat.div_lt (size voters) 2). lia.
Qed.

End tracker_facts.

(** ** The scenarios of the design document, and instances of the theorems *)

Section scenarios.
Import samples.

(** Five voters with match indices 10, 10, 10, 5, 5 commit 10; with
    10, 10, 5, 5, 5 they commit 5. *)
Example committed_three_of_five :
  tracker.committed 0 (cluster [10; 10; 10; 5; 5] [1; 2; 3; 4; 5]%nat []) 0 = 10 ∧
  tracker.committed 0 (cluster [10; 10; 5; 5; 5] [1; 2; 3; 4; 5]%nat []) 0 = 5.
Proof. split; vm_compute; reflexivity. Qed.

(** Joint configuration: the current voters 1, 2, 3 have majority index
    10, the previous voters 3, 4, 5 have majority index 7; the result is
    7. *)
Example committed_joint :
  tracker.committed 0 (cluster [10; 10; 10; 7; 7] [1; 2; 3]%nat [3; 4; 5]%nat) 0 = 7.
Proof. vm_compute. reflexivity. Qed.

(** Five voters: three grants win, three denials lose, one of each with
    three outstanding is undecided. *)
Example tally_votes_five :
  election_tracker.tally_votes (election three_grants) = Some WON ∧
  election_tracker.tally_votes (election three_denials) = Some LOST ∧
  election_tracker.tally_votes (election one_each) = Some UNKNOWN.
Proof. repeat split; vm_compute; reflexivity. Qed.

(** Current [WON] with previous [LOST] is [LOST]; current [UNKNOWN] with
    previous [WON] is [UNKNOWN]. *)
Example votes_tally_votes_mixed :
  votes.tally_votes
    (votes.mk five_voters (election three_grants) (Some (election three_denials)))
    = Some LOST ∧
  votes.tally_votes
    (votes.mk five_voters (election one_each) (Some (election three_grants)))
    = Some UNKNOWN.
Proof. split; vm_compute; reflexivity. Qed.

(** C1: the claim as stated fails.  Five voters with match indices 10,
    10, 10, 5, 5 and no previous voters: the largest index that three of
    the five have reached is 10, yet [committed(20)] is 20, which no
    voter has reached. *)
Lemma committed_stays_at_prev_commit_idx :
  let tr := cluster [10; 10; 10; 5; 5] [1; 2; 3; 4; 5]%nat [] in
  tracker._previous_voters tr = ∅ ∧
  tracker.largest_majority_index 0 tr (tracker._current_voters tr) 10 ∧
  tracker.committed 0 tr 20 = 20 ∧
  ¬ tracker.largest_majority_index 0 tr (tracker._current_voters tr)
      (tracker.committed 0 tr 20).
Proof.
  intros tr. split; [reflexivity |]. split; [| split].
  - destruct (majority_index_gather 0 tr (tracker._current_voters tr))
      as (c & Hc & Hlargest).
    + exists 10. unfold tracker.majority_reaches. vm_compute. lia.
    + vm_compute in Hc. by injection Hc as <-.
  - vm_compute. reflexivity.
  - intros [Hreach _]. unfold tracker.majority_reaches in Hreach.
    vm_compute in Hreach. lia.
Qed.

Lemma committed_max_of_prev_and_majority_witness :
  let tr := cluster [10; 10; 10; 7; 7] [1; 2; 3]%nat [3; 4; 5]%nat in
  ∃ current,
    tracker.largest_majority_index 0 tr (tracker._current_voters tr) current ∧
    (tracker._previous_voters tr = ∅ → tracker.committed 0 tr 4 = Z.max 4 current) ∧
    (tracker._previous_voters tr ≠ ∅ →
       ∃ previous,
         tracker.largest_majority_index 0 tr (tracker._previous_voters tr) previous ∧
         tracker.committed 0 tr 4 = Z.max 4 (Z.min current previous)).
Proof.
  intros tr. apply (committed_max_of_prev_and_majority 0 tr 4).
  - exists 10. unfold tracker.majority_reaches. vm_compute. lia.
  - intros _. exists 7. unfold tracker.majority_reaches. vm_compute. lia.
Defined.

Lemma tally_votes_by_quorum_witness :
  election_tracker.valid (election one_each) ∧
  election_tracker.tally_votes (election one_each) = Some UNKNOWN.
Proof.
  assert (election_tracker.valid (election one_each)) as Hvalid.
  { apply reachable_valid. simpl. unfold SIZE_MAX, size_t_modulus. lia. }
  split; [exact Hvalid |].
  rewrite (tally_votes_by_quorum (election one_each) Hvalid).
  vm_compute. reflexivity.
Defined.

Lemma votes_tally_votes_joint_witness :
  votes.tally_votes
    (votes.mk five_voters (election three_grants) (Some (election three_denials)))
  = Some LOST.
Proof.
  apply (votes_tally_votes_joint five_voters (election three_grants)
           (election three_denials) WON LOST); vm_compute; reflexivity.
Defined.

Lemma register_vote_duplicate_witness :
  let et := election three_grants in
  let et' := (election_tracker.register_vote et 2%nat false).1 in
  (2%nat ∈ election_tracker._responded et) ∧
  election_tracker._granted et' = election_tracker._granted et ∧
  election_tracker._responded et' = election_tracker._responded et ∧
  election_tracker.tally_votes et' = election_tracker.tally_votes et.
Proof.
  intros et et'.
  assert (2%nat ∈ election_tracker._responded et) as Hin.
  { apply (bool_decide_unpack _). vm_compute. exact I. }
  split; [exact Hin |].
  exact (register_vote_duplicate et 2%nat false Hin).
Defined.

Lemma register_vote_unknown_voter_witness :
  (9%nat ∉ election_tracker._suffrage (election one_each)) ∧
  election_tracker.register_vote (election one_each) 9%nat true
    = (election one_each, false).
Proof.
  assert (9%nat ∉ election_tracker._suffrage (election one_each)) as Hout.
  { apply (bool_decide_unpack _). vm_compute. exact I. }
  split; [exact Hout |].
  exact (register_vote_unknown_voter (election one_each) 9%nat true Hout).
Defined.

Lemma tally_votes_empty_suffrage_witness :
  let et :=
    election_tracker.register_votes (election_tracker.make three_observers) three_grants in
  Forall (fun a => election_tracker.can_vote a = false) three_observers ∧
  election_tracker._suffrage et = ∅ ∧
  election_tracker.tally_votes et = Some LOST.
Proof.
  intros et.
  assert (Forall (fun a => election_tracker.can_vote a = false) three_observers) as Hnone.
  { unfold three_observers. simpl. repeat constructor. }
  split; [exact Hnone |].
  destruct (tally_votes_empty_suffrage three_observers three_grants Hnone)
    as (Hempty & _ & _ & _ & Hlost).
  split; [exact Hempty | exact Hlost].
Defined.

End scenarios.

(** * Further properties of the code of the header *)

(** ** [election_tracker]: the effect of votes *)

Section election_tracker_votes.
Import election_tracker.
Context `{Countable server_id}.

#[local] Abbreviation tracker_of := (election_tracker.t server_id).
#[local] Abbreviation member := (election_tracker.server_address server_id).

(** On a tracker that satisfies the class invariant the arithmetic of
    [tally_votes] is that of the integers. *)
Lemma tally_votes_unwrapped (et : tracker_of) :
  valid et →
  tally_votes et =
    Some (if set_size (_suffrage et) / 2 + 1 <=? _granted et then WON
          else if set_size (_suffrage et) / 2 + 1
                  <=? _granted et + (set_size (_suffrage et) - set_size (_responded et))
               then UNKNOWN else LOST).
Proof.
  intros [Hcounted Hsize].
  destruct (counted_sizes et Hcounted) as [Hgranted Hresponded].
  pose proof (set_size_nonneg (_responded et)) as Hr0.
  assert (0 ≤ set_size (_suffrage et) / 2) as Hhalf0 by (apply Z.div_pos; lia).
  assert (2 * (set_size (_suffrage et) / 2) ≤ set_size (_suffrage et)) as Hhalf
    by (apply Z.mul_div_le; lia).
  assert (2 ≤ SIZE_MAX) by (vm_compute; discriminate).
  unfold tally_votes.
  rewrite (size_add_exact (set_size (_suffrage et) / 2) 1) by lia.
  rewrite size_sub_exact by lia.
  rewrite size_add_exact by lia.
  destruct (Z.leb_spec (set_size (_suffrage et) / 2 + 1) (_granted et)); [done |].
  destruct (Z.leb_spec (set_size (_responded et)) (set_size (_suffrage et))); [done | lia].
Qed.

(** The three outcomes, with what each says about the counts. *)
Lemma tally_votes_cases (et : tracker_of) :
  valid et →
  let quorum := set_size (_suffrage et) / 2 + 1 in
  let unknown := set_size (_suffrage et) - set_size (_responded et) in
  (quorum ≤ _granted et ∧ tally_votes et = Some WON) ∨
  (_granted et + unknown < quorum ∧ tally_votes et = Some LOST) ∨
  (_granted et < quorum ≤ _granted et + unknown ∧ tally_votes et = Some UNKNOWN).
Proof.
  intros Hvalid quorum unknown. rewrite (tally_votes_unwrapped et Hvalid).
  fold quorum unknown.
  assert (0 ≤ unknown).
  { destruct Hvalid as [Hcounted _]. apply counted_sizes in Hcounted. unfold unknown. lia. }
  destruct (Z.leb_spec quorum (_granted et)); [by left |].
  destruct (Z.leb_spec quorum (_granted et + unknown)).
  - right; right. split; [lia | done].
  - right; left. split; [lia | done].
Qed.

(** A voter that is eligible and has not responded leaves room in
    [responded]. *)
Lemma new_voter_room (et : tracker_of) (from : server_id) :
  counted et → from ∈ _suffrage et → from ∉ _responded et →
  set_size ({[ from ]} ∪ _responded et) = set_size (_responded et) + 1 ∧
  set_size (_responded et) + 1 ≤ set_size (_suffrage et).
Proof.
  intros [Hsub _] Hin Hnew. unfold set_size.
  assert (size ({[ from ]} ∪ _responded et) = S (size (_responded et))) as Hsize.
  { rewrite size_union by set_solver. by rewrite size_singleton. }
  assert ({[ from ]} ∪ _responded et ⊆ _suffrage et) as Hsub' by set_solver.
  apply subseteq_size in Hsub'. lia.
Qed.

(** The first vote of an eligible voter, with the increment of [granted]
    taken in the integers. *)
Lemma register_vote_new_voter (et : tracker_of) (from : server_id) (granted : bool) :
  valid et → from ∈ _suffrage et → from ∉ _responded et →
  register_vote et from granted =
    ({| _suffrage := _suffrage et;
        _responded := {[ from ]} ∪ _responded et;
        _granted := _granted et + Z.b2z granted |}, true).
Proof.
  intros [Hcounted Hsize] Hin Hnew. unfold register_vote.
  rewrite decide_True by done. rewrite bool_decide_eq_true_2 by done.
  destruct (new_voter_room et from Hcounted Hin Hnew) as [_ Hroom].
  destruct (counted_sizes et Hcounted) as [Hgranted _].
  rewrite size_add_exact; [done | lia | by destruct granted |].
  destruct granted; simpl; lia.
Qed.

(** X2.  The first vote of an eligible voter is recorded and returns
    [true]: the voter joins [responded], which grows by one, and
    [granted] grows by one for a grant and stays for a denial, without
    wrapping; the suffrage is untouched. *)
Theorem register_vote_first_vote (et : tracker_of) (from : server_id) (granted : bool) :
  valid et → from ∈ _suffrage et → from ∉ _responded et →
  let et' := (register_vote et from granted).1 in
  (register_vote et from granted).2 = true ∧
  _suffrage et' = _suffrage et ∧
  _responded et' = {[ from ]} ∪ _responded et ∧
  set_size (_responded et') = set_size (_responded et) + 1 ∧
  _granted et' = _granted et + (if granted then 1 else 0).
Proof.
  intros Hvalid Hin Hnew et'. unfold et'.
  rewrite register_vote_new_voter by done. simpl.
  destruct (new_voter_room et from (valid_counted _ Hvalid) Hin Hnew) as [Hsize _].
  repeat split; first [done | by destruct granted].
Qed.

Lemma size_add_swap (g x y : Z) :
  size_add (size_add g x) y = size_add (size_add g y) x.
Proof.
  unfold size_add. rewrite !Z.add_mod_idemp_l by (vm_compute; discriminate).
  f_equal. lia.
Qed.

(** X3.  Votes of two different voters can be registered in either order:
    the tracker ends in the same state. *)
Theorem register_vote_commutes
    (et : tracker_of) (a b : server_id) (vote_a vote_b : bool) :
  a ≠ b →
  (register_vote (register_vote et a vote_a).1 b vote_b).1
  = (register_vote (register_vote et b vote_b).1 a vote_a).1.
Proof.
  intros Hne. unfold register_vote.
  destruct (decide (a ∈ _suffrage et)) as [Ha | Ha];
    destruct (decide (b ∈ _suffrage et)) as [Hb | Hb]; simpl;
    rewrite ?(decide_True (P := a ∈ _suffrage et)) by done;
    rewrite ?(decide_True (P := b ∈ _suffrage et)) by done;
    rewrite ?(decide_False (P := a ∈ _suffrage et)) by done;
    rewrite ?(decide_False (P := b ∈ _suffrage et)) by done;
    simpl; try done.
  assert ({[ b ]} ∪ ({[ a ]} ∪ _responded et) = {[ a ]} ∪ ({[ b ]} ∪ _responded et))
    as -> by set_solver.
  f_equal.
  destruct (decide (a ∈ _responded et)) as [Har | Har];
    destruct (decide (b ∈ _responded et)) as [Hbr | Hbr].
  - rewrite !bool_decide_eq_false_2 by set_solver. done.
  - rewrite (bool_decide_eq_false_2 (a ∉ _responded et)) by set_solver.
    rewrite (bool_decide_eq_false_2 (a ∉ {[ b ]} ∪ _responded et)) by set_solver.
    rewrite (bool_decide_eq_true_2 (b ∉ _responded et)) by set_solver.
    rewrite (bool_decide_eq_true_2 (b ∉ {[ a ]} ∪ _responded et)) by set_solver.
    done.
  - rewrite (bool_decide_eq_true_2 (a ∉ _responded et)) by set_solver.
    rewrite (bool_decide_eq_true_2 (a ∉ {[ b ]} ∪ _responded et)) by set_solver.
    rewrite (bool_decide_eq_false_2 (b ∉ _responded et)) by set_solver.
    rewrite (bool_decide_eq_false_2 (b ∉ {[ a ]} ∪ _responded et)) by set_solver.
    done.
  - rewrite (bool_decide_eq_true_2 (a ∉ _responded et)) by set_solver.
    rewrite (bool_decide_eq_true_2 (a ∉ {[ b ]} ∪ _responded et)) by set_solver.
    rewrite (bool_decide_eq_true_2 (b ∉ _responded et)) by set_solver.
    rewrite (bool_decide_eq_true_2 (b ∉ {[ a ]} ∪ _responded et)) by set_solver.
    apply size_add_swap.
Qed.

End election_tracker_votes.

Section election_tracker_history.
Import election_tracker.
Context `{Countable server_id}.

#[local] Abbreviation tracker_of := (election_tracker.t server_id).
#[local] Abbreviation member := (election_tracker.server_address server_id).

(** X1.  A freshly constructed tracker has nobody recorded and nothing
    granted, and its suffrage is exactly the ids of the members of the
    configuration that can vote: non-voting members are left out. *)
Theorem make_suffrage_voting_members (configuration : list member) (voter : server_id) :
  _responded (make configuration) = ∅ ∧
  _granted (make configuration) = 0 ∧
  (voter ∈ _suffrage (make configuration)
   ↔ ∃ a, a ∈ configuration ∧ can_vote a = true ∧ id a = voter).
Proof. repeat split; apply make_elem_of_suffrage. Qed.

Lemma register_vote_again (et : tracker_of) (from : server_id) (granted : bool) :
  from ∈ _responded et → (register_vote et from granted).1 = et.
Proof.
  intros Hfrom. unfold register_vote. case_decide; [| done]. simpl.
  rewrite bool_decide_eq_false_2 by (intros Hnot; by apply Hnot).
  assert ({[ from ]} ∪ _responded et = _responded et) as ->.
  { apply subseteq_union_1_L. set_solver. }
  by destruct et.
Qed.

Lemma register_vote_outsider (et : tracker_of) (from : server_id) (granted : bool) :
  from ∉ _suffrage et → (register_vote et from granted).1 = et.
Proof. intros Hfrom. unfold register_vote. by rewrite decide_False. Qed.

Lemma register_votes_snoc (et : tracker_of) (calls : list (server_id * bool))
    (c : server_id * bool) :
  register_votes et (calls ++ [c]) = (register_vote (register_votes et calls) c.1 c.2).1.
Proof. unfold register_votes. by rewrite foldl_app. Qed.

Lemma first_vote_snoc (calls : list (server_id * bool)) (c : server_id * bool)
    (voter : server_id) :
  first_vote (calls ++ [c]) voter =
    match first_vote calls voter with
    | Some vote => Some vote
    | None => if decide (c.1 = voter) then Some c.2 else None
    end.
Proof.
  induction calls as [| c' calls IH]; simpl; [done |].
  by destruct (decide (c'.1 = voter)).
Qed.

(** The history of a tracker, read off the calls. *)
Lemma register_votes_history
    (configuration : list member) (calls : list (server_id * bool)) :
  Z.of_nat (length configuration) ≤ SIZE_MAX →
  let et := register_votes (make configuration) calls in
  _responded et = filter (fun voter => is_Some (first_vote calls voter)) (_suffrage et) ∧
  _granted et
  = set_size (filter (fun voter => first_vote calls voter = Some true) (_suffrage et)).
Proof.
  intros Hlen. induction calls as [| [from vote] calls IH] using rev_ind; intros et.
  - unfold et. change (register_votes (make configuration) []) with (make configuration).
    split.
    + apply set_eq. intros x. rewrite elem_of_filter. simpl.
      split; [set_solver |]. intros [[? [=]] _].
    + unfold set_size. symmetry. change (_granted (make configuration)) with (Z.of_nat 0).
      f_equal. apply size_empty_iff, elem_of_equiv_empty.
      intros x [Hx _]%elem_of_filter. discriminate Hx.
  - set (et0 := register_votes (make configuration) calls) in *.
    assert (valid et0) as Hvalid by (by apply reachable_valid).
    destruct IH as [IHr IHg].
    assert (et = (register_vote et0 from vote).1) as Het
      by apply register_votes_snoc.
    assert (_suffrage et = _suffrage et0) as Hsuff
      by (rewrite Het; apply register_vote_suffrage).
    rewrite Hsuff.
    assert (∀ x, x ∈ _responded et0 ↔ is_Some (first_vote calls x) ∧ x ∈ _suffrage et0)
      as Hresp.
    { intros x. rewrite IHr at 1.
      apply (elem_of_filter (fun voter => is_Some (first_vote calls voter))). }
    destruct (decide (from ∈ _suffrage et0)) as [Hin | Hout];
      [destruct (decide (from ∈ _responded et0)) as [Hold | Hnew] |].
    + (* a repeated call *)
      rewrite Het, register_vote_again by done.
      apply Hresp in Hold as [[v0 Hv0] _].
      assert (∀ x, first_vote (calls ++ [(from, vote)]) x = first_vote calls x) as Hsame.
      { intros x. rewrite first_vote_snoc. simpl.
        destruct (first_vote calls x) eqn:Hx; [done |].
        destruct (decide (from = x)) as [-> | ?]; [congruence | done]. }
      split.
      * rewrite IHr at 1. apply set_eq. intros x.
        rewrite !elem_of_filter. by rewrite Hsame.
      * rewrite IHg. f_equal. apply set_eq. intros x.
        rewrite !elem_of_filter. by rewrite Hsame.
    + (* the first call of an eligible voter *)
      assert (first_vote calls from = None) as Hnone.
      { destruct (first_vote calls from) eqn:Hfv; [| done].
        exfalso. apply Hnew, Hresp. split; [by eexists | done]. }
      rewrite Het, register_vote_new_voter by done. simpl. split.
      * apply set_eq. intros x. rewrite elem_of_union, elem_of_singleton, Hresp.
        rewrite elem_of_filter, first_vote_snoc. simpl.
        destruct (first_vote calls x) eqn:Hx.
        -- split; [intros [-> | ?]; [congruence | done] | by right].
        -- destruct (decide (from = x)) as [-> | Hne].
           ++ split; [intros _; split; [by eexists | done] | by left].
           ++ split; [intros [-> | [[? [=]] _]]; done | intros [[? [=]] _]].
      * rewrite IHg. unfold set_size.
        assert (filter (fun voter => first_vote (calls ++ [(from, vote)]) voter = Some true)
                  (_suffrage et0)
                = (if vote then {[ from ]} else ∅)
                  ∪ filter (fun voter => first_vote calls voter = Some true) (_suffrage et0))
          as ->.
        { apply set_eq. intros x.
          rewrite elem_of_union, !elem_of_filter, first_vote_snoc. simpl.
          destruct (first_vote calls x) eqn:Hx.
          - split; [by right |]. intros [Hx' | ?]; [| done].
            destruct vote; [| set_solver].
            apply elem_of_singleton in Hx'. congruence.
          - destruct (decide (from = x)) as [-> | Hne].
            + destruct vote; split; try set_solver.
            + split; [intros [[=] _] |].
              intros [Hx' | [[=] _]]. destruct vote; set_solver. }
        rewrite size_union.
        -- destruct vote; cbv iota; [rewrite size_singleton | rewrite size_empty];
             unfold Z.b2z; lia.
        -- destruct vote; [| set_solver].
           intros x Hx1 [Hx2 _]%elem_of_filter.
           apply elem_of_singleton in Hx1. congruence.
    + (* a call from outside the suffrage *)
      rewrite Het, register_vote_outsider by done.
      assert (∀ x, x ∈ _suffrage et0 →
                   first_vote (calls ++ [(from, vote)]) x = first_vote calls x) as Hsame.
      { intros x Hx. rewrite first_vote_snoc. simpl.
        destruct (first_vote calls x); [done |].
        destruct (decide (from = x)) as [-> | ?]; done. }
      split.
      * rewrite IHr at 1. apply set_eq. intros x. rewrite !elem_of_filter.
        split; intros [? Hx]; (split; [| done]); [rewrite Hsame | rewrite <- Hsame]; done.
      * rewrite IHg. f_equal. apply set_eq. intros x. rewrite !elem_of_filter.
        split; intros [? Hx]; (split; [| done]); [rewrite Hsame | rewrite <- Hsame]; done.
Qed.

(** X4.  After the constructor and any sequence of [register_vote]
    calls the suffrage is the one the constructor built, [responded]
    holds exactly the eligible voters from whom a call came, and
    [granted] is the number of eligible voters whose first call carried a
    grant: later calls of a voter count for nothing. *)
Theorem register_votes_count_first_votes
    (configuration : list member) (calls : list (server_id * bool)) :
  Z.of_nat (length configuration) ≤ SIZE_MAX →
  let suffrage := _suffrage (make configuration) in
  let et := register_votes (make configuration) calls in
  _suffrage et = suffrage ∧
  _responded et = filter (fun voter => is_Some (first_vote calls voter)) suffrage ∧
  _granted et = set_size (filter (fun voter => first_vote calls voter = Some true) suffrage).
Proof.
  intros Hlen suffrage et.
  assert (_suffrage et = suffrage) as Hsame by apply register_votes_suffrage.
  split; [done |]. rewrite <- Hsame.
  by apply register_votes_history.
Qed.

End election_tracker_history.

(** ** [election_tracker]: what the outcomes mean *)

Section election_tracker_outcomes.
Import election_tracker.
Context `{Countable server_id}.

#[local] Abbreviation tracker_of := (election_tracker.t server_id).
#[local] Abbreviation member := (election_tracker.server_address server_id).

Lemma tally_votes_decided_step (et : tracker_of) (from : server_id) (vote : bool)
    (r : vote_result) :
  valid et → tally_votes et = Some r → r ≠ UNKNOWN →
  tally_votes (register_vote et from vote).1 = Some r.
Proof.
  intros Hvalid Hr Hdecided.
  destruct (decide (from ∈ _suffrage et)) as [Hin | Hout];
    [| by rewrite register_vote_outsider].
  destruct (decide (from ∈ _responded et)) as [Hold | Hnew];
    [by rewrite register_vote_again |].
  pose proof (register_vote_valid et from vote Hvalid) as Hvalid'.
  rewrite register_vote_new_voter in * by done. cbn [fst] in *.
  destruct (new_voter_room et from (valid_counted _ Hvalid) Hin Hnew) as [Hsize Hroom].
  assert (0 ≤ Z.b2z vote ≤ 1) as Hvote by (destruct vote; simpl; lia).
  pose proof (tally_votes_cases _ Hvalid') as Hafter.
  cbn [_suffrage _responded _granted] in Hafter. rewrite Hsize in Hafter.
  destruct (tally_votes_cases _ Hvalid) as [[Hq Ht] | [[Hq Ht] | [Hq Ht]]];
    rewrite Ht in Hr; injection Hr as <-; [| | done];
    destruct Hafter as [[Hq' Ht'] | [[Hq' Ht'] | [Hq' Ht']]]; first [done | lia].
Qed.

(** X5.  A decided election stays decided: once [tally_votes()] has
    returned [WON] or [LOST], it returns the same after any further
    [register_vote] calls. *)
Theorem tally_votes_decided_is_final
    (et : tracker_of) (calls : list (server_id * bool)) (r : vote_result) :
  valid et → tally_votes et = Some r → r ≠ UNKNOWN →
  tally_votes (register_votes et calls) = Some r.
Proof.
  revert et. induction calls as [| [from vote] calls IH]; intros et Hvalid Hr Hdecided;
    [done |].
  apply IH; [by apply register_vote_valid | | done].
  by apply tally_votes_decided_step.
Qed.

(** X6.  Once every eligible voter has responded the election is
    decided: [tally_votes()] returns [WON] or [LOST], not [UNKNOWN]. *)
Theorem tally_votes_all_responded (et : tracker_of) :
  valid et → _responded et = _suffrage et →
  tally_votes et = Some WON ∨ tally_votes et = Some LOST.
Proof.
  intros Hvalid Hall.
  destruct (tally_votes_cases _ Hvalid) as [[_ Ht] | [[_ Ht] | [Hq _]]];
    [by left | by right |].
  rewrite Hall in Hq. lia.
Qed.

(** X7.  Before any vote, an election with at least one eligible voter
    is undecided. *)
Theorem tally_votes_fresh (configuration : list member) :
  Z.of_nat (length configuration) ≤ SIZE_MAX →
  (∃ a, a ∈ configuration ∧ can_vote a = true) →
  tally_votes (make configuration) = Some UNKNOWN.
Proof.
  intros Hlen (a & Ha & Hvote).
  assert (id a ∈ _suffrage (make configuration)) as Hin
    by (apply make_elem_of_suffrage; by exists a).
  assert (1 ≤ set_size (_suffrage (make configuration))) as Hsome.
  { unfold set_size.
    assert (size (_suffrage (make configuration)) ≠ 0%nat); [| lia].
    intros Hzero. apply size_empty_iff in Hzero. set_solver. }
  destruct (tally_votes_cases _ (make_valid configuration Hlen))
    as [[Hq _] | [[Hq _] | [_ Ht]]]; [| | done].
  - change (_granted (make configuration)) with 0 in Hq.
    pose proof (Z.div_pos (set_size (_suffrage (make configuration))) 2). lia.
  - change (_granted (make configuration)) with 0 in Hq.
    change (set_size (_responded (make configuration))) with 0 in Hq.
    pose proof (Z.div_lt (set_size (_suffrage (make configuration))) 2). lia.
Qed.

(** X8.  In terms of the votes themselves: [tally_votes()] returns [WON]
    exactly when more than half of the eligible voters have granted, and
    [LOST] exactly when at least half of them have denied. *)
Theorem tally_votes_by_halves (et : tracker_of) :
  valid et →
  (tally_votes et = Some WON ↔ set_size (_suffrage et) < 2 * _granted et) ∧
  (tally_votes et = Some LOST ↔ set_size (_suffrage et) ≤ 2 * denials et).
Proof.
  intros Hvalid. unfold denials.
  destruct (counted_sizes et (valid_counted _ Hvalid)) as [Hgranted Hresponded].
  assert (2 * (set_size (_suffrage et) / 2) ≤ set_size (_suffrage et)) as Hlow
    by (apply Z.mul_div_le; lia).
  assert (set_size (_suffrage et) < 2 * Z.succ (set_size (_suffrage et) / 2)) as Hhigh
    by (apply Z.mul_succ_div_gt; lia).
  destruct (tally_votes_cases _ Hvalid) as [[Hq Ht] | [[Hq Ht] | [Hq Ht]]];
    rewrite Ht; split; split; intros Hx; first [done | lia | exfalso; lia].
Qed.

Lemma register_votes_cast (vote : bool) (voters : list server_id) :
  ∀ et : tracker_of,
    valid et → NoDup voters →
    (∀ x, x ∈ voters → x ∈ _suffrage et ∧ x ∉ _responded et) →
    register_votes et (cast vote voters) =
      {| _suffrage := _suffrage et;
         _responded := list_to_set voters ∪ _responded et;
         _granted := _granted et + (if vote then Z.of_nat (length voters) else 0) |}.
Proof.
  induction voters as [| x voters IH]; intros et Hvalid Hnodup Hnew.
  - simpl. rewrite (left_id_L ∅ (∪)).
    destruct et, vote; simpl; f_equal; lia.
  - apply NoDup_cons in Hnodup as [Hx Hnodup].
    destruct (Hnew x) as [Hin Hout]; [by left |].
    change (register_votes et (cast vote (x :: voters)))
      with (register_votes (register_vote et x vote).1 (cast vote voters)).
    rewrite IH; [| by apply register_vote_valid | done |].
    + rewrite register_vote_new_voter by done. simpl. f_equal.
      * set_solver.
      * destruct vote; simpl; lia.
    + intros y Hy. rewrite register_vote_new_voter by done. simpl.
      destruct (Hnew y) as [Hyin Hyout]; [by right |].
      split; [done |]. set_solver.
Qed.

(** X9.  [UNKNOWN] means that both outcomes are still open: if every
    outstanding voter grants, the result becomes [WON], and if every
    outstanding voter denies, it becomes [LOST]. *)
Theorem tally_votes_unknown_is_open (et : tracker_of) :
  valid et → tally_votes et = Some UNKNOWN →
  tally_votes (register_votes et (cast true (outstanding et))) = Some WON ∧
  tally_votes (register_votes et (cast false (outstanding et))) = Some LOST.
Proof.
  intros Hvalid Hunknown.
  destruct (tally_votes_cases _ Hvalid) as [[_ Ht] | [[_ Ht] | [Hq _]]]; [congruence .. |].
  assert (_responded et ⊆ _suffrage et) as Hsub by apply Hvalid.
  assert (Z.of_nat (length (outstanding et))
          = set_size (_suffrage et) - set_size (_responded et)) as Hlen.
  { unfold outstanding, set_size.
    change (length (elements ?X)) with (size X).
    rewrite size_difference by done. apply subseteq_size in Hsub. lia. }
  assert (list_to_set (outstanding et) ∪ _responded et = _suffrage et) as Hall.
  { unfold outstanding. rewrite list_to_set_elements_L.
    apply set_eq. intros x. rewrite elem_of_union, elem_of_difference.
    destruct (decide (x ∈ _responded et)); set_solver. }
  assert (∀ vote,
            register_votes et (cast vote (outstanding et)) =
              {| _suffrage := _suffrage et;
                 _responded := _suffrage et;
                 _granted := _granted et
                             + (if vote then Z.of_nat (length (outstanding et)) else 0) |})
    as Hcast.
  { intros vote. rewrite register_votes_cast, ?Hall; [done | done | |].
    - apply NoDup_elements.
    - intros x Hx. unfold outstanding in Hx. apply elem_of_elements in Hx. set_solver. }
  split.
  - pose proof (register_votes_valid (cast true (outstanding et)) et Hvalid) as Hvalid'.
    rewrite Hcast in *.
    destruct (tally_votes_cases _ Hvalid') as [[_ Ht] | [[Hq' _] | [Hq' _]]];
      [done | simpl in Hq'; lia ..].
  - pose proof (register_votes_valid (cast false (outstanding et)) et Hvalid) as Hvalid'.
    rewrite Hcast in *.
    destruct (tally_votes_cases _ Hvalid') as [[Hq' _] | [[_ Ht] | [Hq' _]]];
      [simpl in Hq'; lia | done | simpl in Hq'; lia].
Qed.

End election_tracker_outcomes.

(** ** [follower_progress]: acknowledgements out of order *)

Section follower_progress_reordering.
Import follower_progress.
Context {server_id : Type}.
Variable index_bits : N.

#[local] Abbreviation progress_of := (follower_progress.t server_id).
#[local] Abbreviation accepted := (follower_progress.accepted index_bits).
#[local] Abbreviation accepted_all := (follower_progress.accepted_all index_bits).
#[local] Abbreviation index_add := (follower_progress.index_add index_bits).
#[local] Abbreviation index_modulus := (follower_progress.index_modulus index_bits).

Lemma accepted_swap (fp : progress_of) (a b : Z) :
  accepted (accepted fp a) b = accepted (accepted fp b) a.
Proof. unfold follower_progress.accepted. simpl. f_equal; lia. Qed.

Lemma accepted_twice (fp : progress_of) (idx : Z) :
  accepted (accepted fp idx) idx = accepted fp idx.
Proof. unfold follower_progress.accepted. simpl. f_equal; lia. Qed.

(** X10.  Acknowledgements may arrive in any order and more than once:
    two sequences of [accepted] calls that are permutations of each other
    leave the same progress, and repeating a call changes nothing. *)
Theorem accepted_all_reordered (fp : progress_of) (idxs idxs' : list Z) (idx : Z) :
  idxs ≡ₚ idxs' →
  accepted_all fp idxs = accepted_all fp idxs' ∧
  accepted (accepted fp idx) idx = accepted fp idx.
Proof.
  intros Hperm. split; [| apply accepted_twice].
  revert fp. induction Hperm as [| x l l' _ IH | x y l | l l' l'' _ IH1 _ IH2]; intros fp.
  - done.
  - apply IH.
  - unfold follower_progress.accepted_all. simpl. by rewrite accepted_swap.
  - by rewrite IH1.
Qed.

(** X11.  A late acknowledgement is absorbed: when [idx] is not beyond
    [match_idx] and [match_idx < next_idx], [accepted(idx)] changes
    nothing. *)
Theorem accepted_stale (fp : progress_of) (idx : Z) :
  0 ≤ idx → idx ≤ match_idx fp → match_before_next fp →
  accepted fp idx = fp.
Proof.
  unfold match_before_next. intros Hpos Hstale Hinv.
  assert (index_add idx 1 ≤ idx + 1) as Hsucc.
  { unfold follower_progress.index_add. apply Z.mod_le; [lia |].
    apply index_modulus_pos. }
  unfold follower_progress.accepted. destruct fp; simpl in *. f_equal; lia.
Qed.

Lemma accepted_all_cons (fp : progress_of) (idx : Z) (idxs : list Z) :
  accepted_all fp (idx :: idxs) = accepted_all (accepted fp idx) idxs.
Proof. reflexivity. Qed.

(** X12.  After a sequence of [accepted] calls [match_idx] is the largest
    of its old value and the acknowledged indices: it is at least each of
    them, and it is one of them. *)
Theorem accepted_all_match_idx_largest (fp : progress_of) (idxs : list Z) :
  match_idx fp ≤ match_idx (accepted_all fp idxs) ∧
  Forall (fun idx => idx ≤ match_idx (accepted_all fp idxs)) idxs ∧
  (match_idx (accepted_all fp idxs) = match_idx fp ∨
   match_idx (accepted_all fp idxs) ∈ idxs).
Proof.
  split; [apply accepted_all_ge |].
  revert fp. induction idxs as [| idx idxs IH]; intros fp.
  - split; [constructor | by left].
  - rewrite accepted_all_cons.
    destruct (IH (accepted fp idx)) as [Hall Hone].
    pose proof (accepted_all_ge index_bits idxs (accepted fp idx)) as [Hge _].
    simpl in Hge. split.
    + constructor; [lia | done].
    + destruct Hone as [Hsame | Hin]; [| right; by right].
      rewrite Hsame. simpl.
      destruct (Z.max_spec idx (match_idx fp)) as [[_ ->] | [_ ->]];
        [by left | right; by left].
Qed.

(** X13.  [accepted] moves the two indices only: along any sequence of
    calls the id, [commit_idx], the state, [probe_sent] and [in_flight]
    stay as they were, so an acknowledgement alone never reopens the
    window that [can_send_to] consults. *)
Theorem accepted_all_frame (fp : progress_of) (idxs : list Z) :
  id (accepted_all fp idxs) = id fp ∧
  commit_idx (accepted_all fp idxs) = commit_idx fp ∧
  state (accepted_all fp idxs) = state fp ∧
  probe_sent (accepted_all fp idxs) = probe_sent fp ∧
  in_flight (accepted_all fp idxs) = in_flight fp.
Proof.
  revert fp. induction idxs as [| idx idxs IH]; intros fp; [done |].
  rewrite accepted_all_cons. destruct (IH (accepted fp idx)) as (-> & -> & -> & -> & ->).
  done.
Qed.

(** X14.  As long as no acknowledged index is the largest value of
    [index_t], [next_idx] ends beyond every index that was acknowledged
    along the sequence. *)
Theorem accepted_all_next_idx_beyond (fp : progress_of) (idxs : list Z) :
  Forall (fun idx => idx < index_modulus - 1) idxs →
  Forall (fun idx => idx < next_idx (accepted_all fp idxs)) idxs.
Proof.
  revert fp. induction idxs as [| idx idxs IH]; intros fp Hall; [constructor |].
  apply Forall_cons in Hall as [Hidx Hall].
  rewrite accepted_all_cons. constructor; [| by apply IH].
  pose proof (accepted_all_ge index_bits idxs (accepted fp idx)) as [_ Hge].
  pose proof (index_add_succ_gt index_bits idx Hidx).
  simpl in Hge. lia.
Qed.

End follower_progress_reordering.

(** ** [election_tracker]: votes are kept, and two majorities meet *)

Section election_tracker_safety.
Import election_tracker.
Context `{Countable server_id}.

#[local] Abbreviation tracker_of := (election_tracker.t server_id).
#[local] Abbreviation member := (election_tracker.server_address server_id).

Lemma register_vote_grows (et : tracker_of) (from : server_id) (vote : bool) :
  valid et →
  _responded et ⊆ _responded (register_vote et from vote).1 ∧
  _granted et ≤ _granted (register_vote et from vote).1.
Proof.
  intros Hvalid.
  destruct (decide (from ∈ _suffrage et)) as [Hin | Hout];
    [| by rewrite register_vote_outsider].
  destruct (decide (from ∈ _responded et)) as [Hold | Hnew];
    [by rewrite register_vote_again |].
  rewrite register_vote_new_voter by done. simpl.
  split; [set_solver | destruct vote; simpl; lia].
Qed.

(** X15.  Votes are never taken back: along any sequence of
    [register_vote] calls [responded] only gains members and [granted]
    never decreases. *)
Theorem register_votes_grow (et : tracker_of) (calls : list (server_id * bool)) :
  valid et →
  _responded et ⊆ _responded (register_votes et calls) ∧
  _granted et ≤ _granted (register_votes et calls).
Proof.
  revert et. induction calls as [| [from vote] calls IH]; intros et Hvalid; [done |].
  destruct (register_vote_grows et from vote Hvalid) as [Hr Hg].
  destruct (IH (register_vote et from vote).1) as [Hr' Hg'];
    [by apply register_vote_valid |].
  change (register_votes et ((from, vote) :: calls))
    with (register_votes (register_vote et from vote).1 calls).
  split; [set_solver | lia].
Qed.

(** X16.  Two elections over the same configuration that are both [WON]
    share a voter: some eligible voter's first vote was a grant in both.
    A voter that grants one candidate only therefore rules out a second
    winner. *)
Theorem two_winners_share_a_voter
    (configuration : list member) (calls calls' : list (server_id * bool)) :
  Z.of_nat (length configuration) ≤ SIZE_MAX →
  tally_votes (register_votes (make configuration) calls) = Some WON →
  tally_votes (register_votes (make configuration) calls') = Some WON →
  ∃ voter,
    voter ∈ _suffrage (make configuration) ∧
    first_vote calls voter = Some true ∧
    first_vote calls' voter = Some true.
Proof.
  intros Hlen Hwon Hwon'.
  set (suffrage := _suffrage (make configuration)).
  set (G := filter (fun voter => first_vote calls voter = Some true) suffrage).
  set (G' := filter (fun voter => first_vote calls' voter = Some true) suffrage).
  assert (∀ cs, tally_votes (register_votes (make configuration) cs) = Some WON →
                set_size suffrage / 2 + 1
                ≤ set_size (filter (fun voter => first_vote cs voter = Some true) suffrage))
    as Hquorum.
  { intros cs Hcs.
    destruct (register_votes_history configuration cs Hlen) as [_ Hg].
    rewrite register_votes_suffrage in Hg. fold suffrage in Hg. rewrite <- Hg.
    destruct (tally_votes_cases _ (reachable_valid configuration cs Hlen))
      as [[Hq _] | [[_ Ht] | [_ Ht]]]; [| congruence ..].
    by rewrite register_votes_suffrage in Hq. }
  apply Hquorum in Hwon, Hwon'. fold G in Hwon. fold G' in Hwon'.
  destruct (set_choose_or_empty (G ∩ G')) as [[voter Hvoter] | Hdisjoint].
  - exists voter. apply elem_of_intersection in Hvoter as [HG HG'].
    apply elem_of_filter in HG as [Hv Hin]. apply elem_of_filter in HG' as [Hv' _].
    done.
  - exfalso.
    assert (size (G ∪ G') = (size G + size G')%nat) as Hunion
      by (apply size_union; set_solver).
    assert (G ∪ G' ⊆ suffrage) as Hsub.
    { intros x [[_ Hx]%elem_of_filter | [_ Hx]%elem_of_filter]%elem_of_union; done. }
    apply subseteq_size in Hsub.
    assert (set_size suffrage < 2 * Z.succ (set_size suffrage / 2)) as Hhigh
      by (apply Z.mul_succ_div_gt; lia).
    unfold set_size in *. lia.
Qed.

End election_tracker_safety.

(** ** Instances of the further properties on the sample clusters *)

Section further_instances.
Import samples.

Lemma election_valid (calls : list (nat * bool)) : election_tracker.valid (election calls).
Proof. apply reachable_valid. simpl. unfold SIZE_MAX, size_t_modulus. lia. Qed.

Lemma register_vote_first_vote_witness :
  let et := election one_each in
  let et' := (election_tracker.register_vote et 3%nat true).1 in
  (election_tracker.register_vote et 3%nat true).2 = true ∧
  election_tracker._suffrage et' = election_tracker._suffrage et ∧
  election_tracker._responded et' = {[ 3%nat ]} ∪ election_tracker._responded et ∧
  set_size (election_tracker._responded et')
  = set_size (election_tracker._responded et) + 1 ∧
  election_tracker._granted et' = election_tracker._granted et + 1.
Proof.
  intros et.
  apply (register_vote_first_vote et 3%nat true).
  - apply election_valid.
  - apply (bool_decide_unpack _). vm_compute. exact I.
  - apply (bool_decide_unpack _). vm_compute. exact I.
Defined.

Lemma register_vote_commutes_witness :
  (election_tracker.register_vote
     (election_tracker.register_vote (election one_each) 3%nat true).1 4%nat false).1
  = (election_tracker.register_vote
       (election_tracker.register_vote (election one_each) 4%nat false).1 3%nat true).1.
Proof. apply (register_vote_commutes (election one_each) 3%nat 4%nat true false). lia. Defined.

Lemma register_votes_count_first_votes_witness :
  let calls := [(1, true); (1, false); (2, false); (2, true); (9, true)]%nat in
  let suffrage := election_tracker._suffrage (election_tracker.make five_voters) in
  let et := election calls in
  election_tracker._suffrage et = suffrage ∧
  election_tracker._responded et
  = filter (fun voter => is_Some (first_vote calls voter)) suffrage ∧
  election_tracker._granted et
  = set_size (filter (fun voter => first_vote calls voter = Some true) suffrage).
Proof.
  intros calls.
  apply (register_votes_count_first_votes five_voters calls).
  simpl. unfold SIZE_MAX, size_t_modulus. lia.
Defined.

Lemma tally_votes_decided_is_final_witness :
  election_tracker.tally_votes
    (election_tracker.register_votes (election three_grants) three_denials)
  = Some WON.
Proof.
  apply (tally_votes_decided_is_final (election three_grants) three_denials WON).
  - apply election_valid.
  - vm_compute. reflexivity.
  - discriminate.
Defined.

Lemma tally_votes_all_responded_witness :
  let et := election [(1, true); (2, false); (3, false); (4, true); (5, false)]%nat in
  election_tracker.tally_votes et = Some WON ∨ election_tracker.tally_votes et = Some LOST.
Proof.
  intros et. apply (tally_votes_all_responded et).
  - apply election_valid.
  - vm_compute. reflexivity.
Defined.

Lemma tally_votes_fresh_witness :
  election_tracker.tally_votes (election_tracker.make five_voters) = Some UNKNOWN.
Proof.
  apply (tally_votes_fresh five_voters).
  - simpl. unfold SIZE_MAX, size_t_modulus. lia.
  - exists (election_tracker.mk_address 1%nat true). split; [left | reflexivity].
Defined.

Lemma tally_votes_by_halves_witness :
  let et := election three_denials in
  (election_tracker.tally_votes et = Some WON
   ↔ set_size (election_tracker._suffrage et) < 2 * election_tracker._granted et) ∧
  (election_tracker.tally_votes et = Some LOST
   ↔ set_size (election_tracker._suffrage et) ≤ 2 * denials et).
Proof. intros et. apply (tally_votes_by_halves et), election_valid. Defined.

Lemma tally_votes_unknown_is_open_witness :
  let et := election one_each in
  election_tracker.tally_votes
    (election_tracker.register_votes et (cast true (outstanding et))) = Some WON ∧
  election_tracker.tally_votes
    (election_tracker.register_votes et (cast false (outstanding et))) = Some LOST.
Proof.
  intros et. apply (tally_votes_unknown_is_open et).
  - apply election_valid.
  - vm_compute. reflexivity.
Defined.

Lemma register_votes_grow_witness :
  let et := election one_each in
  election_tracker._responded et
    ⊆ election_tracker._responded (election_tracker.register_votes et three_grants) ∧
  election_tracker._granted et
    ≤ election_tracker._granted (election_tracker.register_votes et three_grants).
Proof. intros et. apply (register_votes_grow et three_grants), election_valid. Defined.

Lemma two_winners_share_a_voter_witness :
  let calls := three_grants in
  let calls' := [(3, true); (4, true); (5, true)]%nat in
  ∃ voter,
    voter ∈ election_tracker._suffrage (election_tracker.make five_voters) ∧
    first_vote calls voter = Some true ∧
    first_vote calls' voter = Some true.
Proof.
  intros calls calls'.
  apply (two_winners_share_a_voter five_voters calls calls').
  - simpl. unfold SIZE_MAX, size_t_modulus. lia.
  - vm_compute. reflexivity.
  - vm_compute. reflexivity.
Defined.

Lemma accepted_all_reordered_witness :
  let fp := follower_progress.make 7%nat 1 in
  follower_progress.accepted_all 64 fp [5; 3; 9] = follower_progress.accepted_all 64 fp [9; 5; 3] ∧
  follower_progress.accepted 64 (follower_progress.accepted 64 fp 4) 4
  = follower_progress.accepted 64 fp 4.
Proof.
  intros fp. apply (accepted_all_reordered 64 fp [5; 3; 9] [9; 5; 3] 4).
  symmetry. apply (Permutation_cons_append [5; 3] 9).
Defined.

Lemma accepted_stale_witness :
  let fp := replicated 2%nat 10 in
  follower_progress.accepted 64 fp 5 = fp.
Proof.
  intros fp. apply (accepted_stale 64 fp 5).
  - lia.
  - vm_compute. discriminate.
  - unfold follower_progress.match_before_next. vm_compute. reflexivity.
Defined.

Lemma accepted_all_next_idx_beyond_witness :
  let fp := follower_progress.make 7%nat 1 in
  Forall (fun idx => idx < follower_progress.next_idx
                             (follower_progress.accepted_all 64 fp [5; 3; 9]))
         [5; 3; 9].
Proof.
  intros fp. apply (accepted_all_next_idx_beyond 64 fp [5; 3; 9]).
  repeat constructor.
Defined.

End further_instances.
